(** * nano::optional_ptr — a heap-allocating, mutex-guarded optional

    Shallow embedding of [nano/lib/optional_ptr.hpp].  Every member function
    of the class template is a program in a small state-and-fault monad over
    a store that holds the heap cells of type [T], the [optional_ptr]
    instances (their [ptr] and [mutex] members) and the trace of the memory
    and lock events performed so far. *)

From stdpp Require Import gmap list strings.

(** Addresses of heap cells holding a [T], and of [optional_ptr] instances. *)
Abbreviation loc := positive (only parsing).
Abbreviation oid := nat (only parsing).

(** What the two headers that are not part of the sources decide:
    whether [nano::mutex] (nano/lib/locks.hpp) may be locked again by the
    thread that holds it, and whether [debug_assert] (nano/lib/utility.hpp)
    evaluates its argument (debug build) or expands to nothing. *)
Class environment := Environment {
  mutex_recursive : bool;
  debug_assert_enabled : bool
}.

(** ** The [static_assert] of line 22 *)

Inductive instantiation :=
  | Accepted
  | Rejected (message : string).

(** [static_assert (sizeof (T) > alignof (std::max_align_t), "Use [std|boost]::optional")] *)
Definition static_assert (cond : bool) (message : string) : instantiation :=
  if cond then Accepted else Rejected message.

Definition instantiate (sizeof_T alignof_max_align_t : N) : instantiation :=
  static_assert (alignof_max_align_t <? sizeof_T)%N "Use [std|boost]::optional".

(** ** Store, events and the monad *)

Inductive event :=
  | Acquire (o : oid)     (* a call of mutex.lock () of instance o *)
  | Release (o : oid)     (* mutex.unlock () of instance o *)
  | PtrRead (o : oid)     (* the member ptr of instance o is read *)
  | PtrWrite (o : oid)    (* the member ptr of instance o is written *)
  | CellRead (l : loc)    (* the T in cell l is read (copy construction) *)
  | New (l : loc)         (* cell l is allocated *)
  | Delete (l : loc).     (* cell l is released *)

Inductive fault :=
  | Relock (o : oid)      (* a non-recursive mutex locked by its holder *)
  | NullDeref (o : oid)   (* operator* of an empty unique_ptr *)
  | AssertFailed          (* debug_assert aborts *)
  | Dangling.             (* a reference to no live object or cell *)

(** The members of one instance: [std::unique_ptr<T> ptr] and
    [nano::mutex mutex], the latter as the number of times it is held. *)
Record object := Object {
  ptr : option loc;
  mutex : nat
}.

Section Model.
Context {T : Type}.

Record state := State {
  heap : gmap loc T;
  objs : gmap oid object;
  trace : list event
}.

Inductive outcome (A : Type) :=
  | Done (a : A) (σ : state)
  | Fault (f : fault) (σ : state).
Global Arguments Done {A} a σ.
Global Arguments Fault {A} f σ.

Definition M (A : Type) : Type := state → outcome A.

Definition ret {A} (a : A) : M A := λ σ, Done a σ.
Definition fail {A} (f : fault) : M A := λ σ, Fault f σ.
Definition bind {A B} (m : M A) (k : A → M B) : M B :=
  λ σ, match m σ with
       | Done a σ' => k a σ'
       | Fault f σ' => Fault f σ'
       end.

End Model.
Global Arguments state : clear implicits.
Global Arguments outcome : clear implicits.
Global Arguments M : clear implicits.

Declare Scope prog_scope.
Delimit Scope prog_scope with prog.
Notation "x <- m ; k" := (bind m (λ x, k))
  (at level 100, m at next level, k at level 200, right associativity) : prog_scope.
Notation "m ;; k" := (bind m (λ _, k))
  (at level 100, k at level 200, right associativity) : prog_scope.
Local Open Scope prog_scope.

Section Primitives.
Context {T : Type} {env : environment}.
Local Abbreviation M := (M T).

Definition emit (e : event) : M unit :=
  λ σ, Done tt (State (heap σ) (objs σ) (trace σ ++ [e])).

Definition the_object (o : oid) : M object :=
  λ σ, match objs σ !! o with
       | Some ob => Done ob σ
       | None => Fault Dangling σ
       end.

Definition put_object (o : oid) (ob : object) : M unit :=
  λ σ, Done tt (State (heap σ) (<[o := ob]> (objs σ)) (trace σ)).

(** *** nano::mutex and nano::lock_guard *)

Definition mutex_lock (o : oid) : M unit :=
  ob <- the_object o;
  emit (Acquire o);;
  match mutex ob with
  | 0 => put_object o (Object (ptr ob) 1)
  | S n => if mutex_recursive
           then put_object o (Object (ptr ob) (S (S n)))
           else fail (Relock o)
  end.

Definition mutex_unlock (o : oid) : M unit :=
  ob <- the_object o;
  emit (Release o);;
  put_object o (Object (ptr ob) (pred (mutex ob))).

(** [nano::lock_guard<nano::mutex> lock{ mutex };] as the first statement of
    a body: the mutex is held until the body has produced its result. *)
Definition lock_guard {A} (o : oid) (body : M A) : M A :=
  mutex_lock o;;
  r <- body;
  mutex_unlock o;;
  ret r.

(** *** Heap cells *)

Definition cell_load (l : loc) : M T :=
  λ σ, match heap σ !! l with
       | Some v => Done v (State (heap σ) (objs σ) (trace σ ++ [CellRead l]))
       | None => Fault Dangling σ
       end.

Definition cell_new (v : T) : M loc :=
  λ σ, let l := fresh (dom (heap σ)) in
       Done l (State (<[l := v]> (heap σ)) (objs σ) (trace σ ++ [New l])).

Definition cell_delete (l : loc) : M unit :=
  λ σ, Done tt (State (delete l (heap σ)) (objs σ) (trace σ ++ [Delete l])).

(** *** std::unique_ptr<T> *)

(** [std::make_unique<T> (value)]: a new cell, copy-constructed from the
    [T] that the reference [value] denotes. *)
Definition make_unique (value : loc) : M loc :=
  v <- cell_load value;
  cell_new v.

(** The destructor of a [unique_ptr] that holds [p]. *)
Definition unique_drop (p : option loc) : M unit :=
  match p with
  | Some l => cell_delete l
  | None => ret tt
  end.

(** Reading the member [ptr] of instance [o]: [ptr.get ()],
    [ptr.operator-> ()], [static_cast<bool> (ptr)], [other.ptr]. *)
Definition ptr_get (o : oid) : M (option loc) :=
  ob <- the_object o;
  emit (PtrRead o);;
  ret (ptr ob).

Definition ptr_set (o : oid) (p : option loc) : M unit :=
  ob <- the_object o;
  emit (PtrWrite o);;
  put_object o (Object p (mutex ob)).

(** [*ptr]: the cell the member points to; undefined when it is null. *)
Definition ptr_deref (o : oid) : M loc :=
  p <- ptr_get o;
  match p with
  | Some l => ret l
  | None => fail (NullDeref o)
  end.

(** [ptr = std::move (p)] and [ptr.reset (p)]: the member takes [p], then
    the cell it held before is released. *)
Definition ptr_reset (o : oid) (p : option loc) : M unit :=
  old <- ptr_get o;
  ptr_set o p;;
  unique_drop old.

(** [ptr.swap (new_ptr)]: the result is what [new_ptr] holds afterwards. *)
Definition ptr_swap (o : oid) (new_ptr : option loc) : M (option loc) :=
  old <- ptr_get o;
  ptr_set o new_ptr;;
  ret old.

(** The storage of a new instance before a constructor body runs: the
    default-initialised members. *)
Definition init_members (o : oid) : M unit :=
  put_object o (Object None 0).

(** The members are destroyed after a destructor body. *)
Definition destroy_members (o : oid) : M unit :=
  ob <- the_object o;
  unique_drop (ptr ob);;
  λ σ, Done tt (State (heap σ) (delete o (objs σ)) (trace σ)).

(** [debug_assert (check)] *)
Definition debug_assert (check : M bool) : M unit :=
  if debug_assert_enabled
  then b <- check; if b : bool then ret tt else fail AssertFailed
  else ret tt.

(** ** The member functions of optional_ptr *)

(** [explicit operator bool () const] *)
Definition operator_bool (o : oid) : M bool :=
  lock_guard o (
    p <- ptr_get o;
    ret (bool_decide (is_Some p))).

(** [bool is_initialized () const] *)
Definition is_initialized (o : oid) : M bool :=
  lock_guard o (
    p <- ptr_get o;
    ret (bool_decide (is_Some p))).

(** [explicit optional_ptr ()] *)
Definition optional_ptr_empty (o : oid) : M unit :=
  init_members o;;
  lock_guard o (
    ptr_reset o None).

(** [explicit optional_ptr (T const & value)] *)
Definition optional_ptr_from (o : oid) (value : loc) : M unit :=
  init_members o;;
  lock_guard o (
    l <- make_unique value;
    ptr_reset o (Some l)).

(** The condition [other && other.ptr], [&&] evaluating its right operand
    only when the left one is true. *)
Definition other_and_other_ptr (other : oid) : M bool :=
  b <- operator_bool other;
  if b : bool
  then p <- ptr_get other; ret (bool_decide (is_Some p))
  else ret false.

(** [explicit optional_ptr (optional_ptr const & other)] *)
Definition optional_ptr_copy (o other : oid) : M unit :=
  init_members o;;
  lock_guard o (
    c <- other_and_other_ptr other;
    if c : bool
    then src <- ptr_deref other;
         l <- make_unique src;
         ptr_reset o (Some l)
    else ptr_reset o None).

(** [optional_ptr & operator= (optional_ptr const & other)] *)
Definition assign_copy (o other : oid) : M oid :=
  lock_guard o (
    c <- other_and_other_ptr other;
    (if c : bool
     then src <- ptr_deref other;
          l <- make_unique src;
          ptr_reset o (Some l)
     else ret tt);;
    ret o).

(** [optional_ptr & operator= (T const & t_object)]: [new_ptr] is declared
    before [lock], so at the end of the body the mutex is unlocked first and
    [new_ptr], which then holds the old cell, is destroyed second. *)
Definition assign_value (o : oid) (t_object : loc) : M oid :=
  new_ptr <- make_unique t_object;
  mutex_lock o;;
  new_ptr <- ptr_swap o (Some new_ptr);
  mutex_unlock o;;
  unique_drop new_ptr;;
  ret o.

(** [~optional_ptr ()] *)
Definition optional_ptr_destroy (o : oid) : M unit :=
  lock_guard o (
    ptr_reset o None);;
  destroy_members o.

(** [T & operator* ()] and its const variant: the reference is the cell. *)
Definition operator_star (o : oid) : M loc :=
  lock_guard o (
    ptr_deref o).

(** [T * const operator-> ()] and its const variant. *)
Definition operator_arrow (o : oid) : M (option loc) :=
  lock_guard o (
    ptr_get o).

(** [T * const get ()] and its const variant. *)
Definition get (o : oid) : M (option loc) :=
  lock_guard o (
    debug_assert (is_initialized o);;
    ptr_get o).

(** ** Callers *)

(** The owner of the [T] at [l] assigns [w] to it. *)
Definition cell_store (l : loc) (w : T) : M unit :=
  λ σ, match heap σ !! l with
       | Some _ => Done tt (State (<[l := w]> (heap σ)) (objs σ) (trace σ))
       | None => Fault Dangling σ
       end.

(** The two presence queries of the class. *)
Inductive query :=
  | ViaOperatorBool
  | ViaIsInitialized.

Definition ask (o : oid) (q : query) : M bool :=
  match q with
  | ViaOperatorBool => operator_bool o
  | ViaIsInitialized => is_initialized o
  end.

Fixpoint ask_all (o : oid) (qs : list query) : M (list bool) :=
  match qs with
  | [] => ret []
  | q :: qs => b <- ask o q; bs <- ask_all o qs; ret (b :: bs)
  end.

(** The value an instance owns, if any, read off the store. *)
Definition value_of (σ : state T) (o : oid) : option T :=
  match objs σ !! o with
  | Some ob => match ptr ob with
               | Some l => heap σ !! l
               | None => None
               end
  | None => None
  end.

(** An instance's [ptr] is null or points to a live cell. *)
Definition owns_live (σ : state T) (ob : object) : Prop :=
  ∀ l, ptr ob = Some l → is_Some (heap σ !! l).

(** The store an outcome ends in, and the events a call added to it. *)
Definition final {A} (r : outcome T A) : state T :=
  match r with
  | Done _ σ => σ
  | Fault _ σ => σ
  end.

Definition events_since {A} (σ : state T) (r : outcome T A) : list event :=
  drop (length (trace σ)) (trace (final r)).

End Primitives.

(** ** Properties of traces *)

Global Instance event_eq_dec : EqDecision event.
Proof. solve_decision. Defined.

(** How often the mutex of [o] is locked in a trace. *)
Definition acquisitions (o : oid) (tr : list event) : nat :=
  length (filter (λ e, e = Acquire o) tr).

Fixpoint remove_one (o : oid) (held : list oid) : list oid :=
  match held with
  | [] => []
  | o' :: held => if decide (o = o') then held else o' :: remove_one o held
  end.

(** No mutex is locked while it is held; [held] lists the mutexes held
    before the trace. *)
Fixpoint relock_free (held : list oid) (tr : list event) : bool :=
  match tr with
  | [] => true
  | Acquire o :: tr => bool_decide (o ∉ held) && relock_free (o :: held) tr
  | Release o :: tr => relock_free (remove_one o held) tr
  | _ :: tr => relock_free held tr
  end.

(** The accesses to a member [ptr] made while the mutex of its instance is
    not held. *)
Fixpoint unguarded (held : list oid) (tr : list event) : list event :=
  match tr with
  | [] => []
  | Acquire o :: tr => unguarded (o :: held) tr
  | Release o :: tr => unguarded (remove_one o held) tr
  | PtrRead o :: tr =>
      if decide (o ∈ held) then unguarded held tr else PtrRead o :: unguarded held tr
  | PtrWrite o :: tr =>
      if decide (o ∈ held) then unguarded held tr else PtrWrite o :: unguarded held tr
  | _ :: tr => unguarded held tr
  end.

(** The pairs (held, acquired) of a trace: a mutex locked while another
    one is held. *)
Fixpoint nested_acquires (held : list oid) (tr : list event) : list (oid * oid) :=
  match tr with
  | [] => []
  | Acquire o :: tr => ((λ h, (h, o)) <$> held) ++ nested_acquires (o :: held) tr
  | Release o :: tr => nested_acquires (remove_one o held) tr
  | _ :: tr => nested_acquires held tr
  end.

(** ** Uses of the class *)

Section Uses.
Context {T : Type} {env : environment}.

(** [for (auto const & t : values) x = t;] *)
Fixpoint assign_all (o : oid) (values : list loc) : M T unit :=
  match values with
  | [] => ret tt
  | t :: values => assign_value o t;; assign_all o values
  end.

(** [T copy = *x;]: the value read through the reference [operator*]
    returns. *)
Definition read (o : oid) : M T T :=
  r <- operator_star o;
  cell_load r.

(** [*x = w;] *)
Definition write (o : oid) (w : T) : M T unit :=
  r <- operator_star o;
  cell_store r w.

(** No mutex is held: the store between two calls of a single thread. *)
Definition quiescent (σ : state T) : Prop :=
  ∀ o ob, objs σ !! o = Some ob → mutex ob = 0.

(** Every non-null [ptr] points to a live cell. *)
Definition all_live (σ : state T) : Prop :=
  ∀ o ob, objs σ !! o = Some ob → owns_live σ ob.

(** No cell is owned by two instances. *)
Definition exclusive (σ : state T) : Prop :=
  ∀ o1 o2 ob1 ob2 l,
    objs σ !! o1 = Some ob1 → objs σ !! o2 = Some ob2 →
    ptr ob1 = Some l → ptr ob2 = Some l → o1 = o2.

Definition well_formed (σ : state T) : Prop :=
  quiescent σ ∧ all_live σ ∧ exclusive σ.

End Uses.

(** ** A small store to run the programs on *)

(** The build of the node: [nano::mutex] wraps a plain [std::mutex], and
    [debug_assert] is active. *)
Definition debug_build : environment := Environment false true.

(** Cell 5 holds 42 (owned by instance 0), cell 9 holds 7 (a caller's
    variable); instance 1 is empty. *)
Definition store_ab : state nat :=
  State {[ 5%positive := 42; 9%positive := 7 ]}
        {[ 0 := Object (Some 5%positive) 0; 1 := Object None 0 ]}
        [].

(** Two present instances: instance 0 owns cell 5 holding 42, instance 1
    owns cell 6 holding 8. *)
Definition store_cd : state nat :=
  State {[ 5%positive := 42; 6%positive := 8 ]}
        {[ 0 := Object (Some 5%positive) 0; 1 := Object (Some 6%positive) 0 ]}
        [].

(** * Proofs *)

Ltac unfold_ops :=
  unfold optional_ptr_destroy, assign_copy, assign_value, optional_ptr_copy,
    optional_ptr_from, optional_ptr_empty, operator_star, operator_arrow, get,
    debug_assert, ask, is_initialized, other_and_other_ptr, operator_bool,
    lock_guard, ptr_reset, ptr_swap, ptr_deref, ptr_set, ptr_get, make_unique,
    unique_drop, cell_store, cell_new, cell_load, cell_delete, mutex_lock,
    mutex_unlock, init_members, the_object, put_object, emit, bind, ret, fail.

(** Symbolic execution of a program from a store described by lookups. *)
Ltac exec := unfold_ops; repeat (cbn; simplify_map_eq).

Ltac same_trace := rewrite <- ?app_assoc; reflexivity.

Ltac same_map :=
  apply map_eq; intros ?i;
  repeat match goal with
         | |- context [<[?k := _]> _ !! ?i] =>
             destruct (decide (k = i)); simplify_map_eq
         | |- context [delete ?k _ !! ?i] =>
             destruct (decide (k = i)); simplify_map_eq
         end; try done.

Section Proofs.
Context {T : Type}.
Implicit Types (σ : state T) (o d s a c : oid) (ob : object) (l : loc) (v w : T).

(** ** Presence queries on an instance whose mutex is free *)

Lemma is_initialized_run {env : environment} σ o ob :
  objs σ !! o = Some ob → mutex ob = 0 →
  is_initialized o σ =
    Done (bool_decide (is_Some (ptr ob)))
         (State (heap σ) (objs σ) (trace σ ++ [Acquire o; PtrRead o; Release o])).
Proof.
  intros Ho Hm. destruct ob as [p m]; simpl in Hm; subst m.
  exec. f_equal. f_equal; [same_map | same_trace].
Qed.

Lemma operator_bool_run {env : environment} σ o ob :
  objs σ !! o = Some ob → mutex ob = 0 →
  operator_bool o σ =
    Done (bool_decide (is_Some (ptr ob)))
         (State (heap σ) (objs σ) (trace σ ++ [Acquire o; PtrRead o; Release o])).
Proof. apply is_initialized_run. Qed.

Lemma ask_run {env : environment} σ o ob q :
  objs σ !! o = Some ob → mutex ob = 0 →
  ask o q σ =
    Done (bool_decide (is_Some (ptr ob)))
         (State (heap σ) (objs σ) (trace σ ++ [Acquire o; PtrRead o; Release o])).
Proof. destruct q; [apply operator_bool_run | apply is_initialized_run]. Qed.

Lemma operator_star_run {env : environment} σ o ob l :
  objs σ !! o = Some ob → mutex ob = 0 → ptr ob = Some l →
  operator_star o σ =
    Done l (State (heap σ) (objs σ) (trace σ ++ [Acquire o; PtrRead o; Release o])).
Proof.
  intros Ho Hm Hp. destruct ob as [p m]; simpl in Hm, Hp; subst m p.
  exec. f_equal. f_equal; [same_map | same_trace].
Qed.

(** C1. Copy-assignment from an empty source into a distinct destination,
    empty or present, returns the destination and leaves every instance and
    every heap cell as it was: only the lock events and one read of the
    source's [ptr] are added to the trace. *)
Theorem assign_copy_empty_source_unchanged {env : environment} σ d s obd :
  d ≠ s →
  objs σ !! d = Some obd → mutex obd = 0 →
  objs σ !! s = Some (Object None 0) →
  assign_copy d s σ =
    Done d (State (heap σ) (objs σ)
              (trace σ ++ [Acquire d; Acquire s; PtrRead s; Release s; Release d])).
Proof.
  intros Hds Hd Hm Hs. destruct obd as [p m]; simpl in Hm; subst m.
  exec. f_equal. f_equal; [same_map | same_trace].
Qed.

(** ** Construction *)

Lemma optional_ptr_empty_run {env : environment} σ o :
  optional_ptr_empty o σ =
    Done tt (State (heap σ) (<[o := Object None 0]> (objs σ))
               (trace σ ++ [Acquire o; PtrRead o; PtrWrite o; Release o])).
Proof. exec. f_equal. f_equal; [same_map | same_trace]. Qed.

Lemma optional_ptr_from_run {env : environment} σ o lv v :
  heap σ !! lv = Some v →
  optional_ptr_from o lv σ =
    Done tt (State (<[fresh (dom (heap σ)) := v]> (heap σ))
               (<[o := Object (Some (fresh (dom (heap σ)))) 0]> (objs σ))
               (trace σ ++ [Acquire o; CellRead lv; New (fresh (dom (heap σ)));
                            PtrRead o; PtrWrite o; Release o])).
Proof. intros Hv. exec. f_equal. f_equal; [same_map | same_trace]. Qed.

Lemma fresh_cell_unused σ : heap σ !! fresh (dom (heap σ)) = None.
Proof. apply not_elem_of_dom, is_fresh. Qed.

Lemma fresh_cell_differs σ l : is_Some (heap σ !! l) → l ≠ fresh (dom (heap σ)).
Proof.
  intros [v Hv] ->. rewrite fresh_cell_unused in Hv. discriminate.
Qed.

Lemma ask_all_empty {env : environment} o qs σ :
  objs σ !! o = Some (Object None 0) →
  ∃ σ', ask_all o qs σ = Done (const false <$> qs) σ'
        ∧ objs σ' = objs σ ∧ heap σ' = heap σ.
Proof.
  revert σ. induction qs as [|q qs IH]; intros σ Ho.
  - exists σ. done.
  - cbn [ask_all]. unfold bind at 1.
    rewrite (ask_run σ o _ q Ho eq_refl). cbn [ptr].
    destruct (IH (State (heap σ) (objs σ)
                    (trace σ ++ [Acquire o; PtrRead o; Release o])) Ho)
      as (σ' & Hrun & Hobjs & Hheap).
    exists σ'. unfold bind, ret. rewrite Hrun. split; [|done].
    f_equal.
Qed.

(** C8. However the store looks before, [optional_ptr ()] completes, and
    any sequence of presence queries (boolean conversion or
    [is_initialized], in any order and number) on the instance it built
    answers false every time and leaves the instance empty. *)
Theorem empty_is_never_present {env : environment} σ o qs :
  ∃ σ', (optional_ptr_empty o;; ask_all o qs) σ = Done (const false <$> qs) σ'
        ∧ objs σ' !! o = Some (Object None 0)
        ∧ heap σ' = heap σ.
Proof.
  unfold bind at 1. rewrite optional_ptr_empty_run.
  destruct (ask_all_empty o qs
              (State (heap σ) (<[o := Object None 0]> (objs σ))
                 (trace σ ++ [Acquire o; PtrRead o; PtrWrite o; Release o])))
    as (σ' & Hrun & Hobjs & Hheap).
  { cbn. apply lookup_insert_eq. }
  exists σ'. split; [done|]. rewrite Hobjs, Hheap. cbn.
  split; [apply lookup_insert_eq | done].
Qed.

(** C9. The class template is rejected, with the message of its
    [static_assert], exactly when [sizeof (T)] is at most
    [alignof (std::max_align_t)], and accepted exactly when it is larger. *)
Theorem instantiate_rejected_iff (sizeof_T alignof_max_align_t : N) :
  (instantiate sizeof_T alignof_max_align_t = Rejected "Use [std|boost]::optional"
     ↔ (sizeof_T ≤ alignof_max_align_t)%N)
  ∧ (instantiate sizeof_T alignof_max_align_t = Accepted
     ↔ (alignof_max_align_t < sizeof_T)%N).
Proof.
  unfold instantiate, static_assert.
  destruct (N.ltb_spec alignof_max_align_t sizeof_T); split; split;
    try done; try lia.
Qed.

(** ** Assignment of a value *)

(** C4. On an instance whose mutex is free, empty or owning a live cell,
    [operator= (T const &)] with a reference to a [T] equal to [v] returns
    the instance, which then owns the new cell and is present with value
    [v].  The events of the call are, in this order: the value is read and
    the new cell allocated, the mutex is locked, [ptr] is read and written
    (the swap), the mutex is unlocked, and only then the cell owned before,
    if there was one, is released; that cell is gone afterwards. *)
Theorem assign_value_installs_copy {env : environment} σ o ob lv v :
  objs σ !! o = Some ob → mutex ob = 0 → owns_live σ ob →
  heap σ !! lv = Some v →
  ∃ σ' l',
    assign_value o lv σ = Done o σ'
    ∧ l' = fresh (dom (heap σ))
    ∧ objs σ' = <[o := Object (Some l') 0]> (objs σ)
    ∧ value_of σ' o = Some v
    ∧ is_initialized o σ' =
        Done true (State (heap σ') (objs σ')
                     (trace σ' ++ [Acquire o; PtrRead o; Release o]))
    ∧ (∀ l, ptr ob = Some l → heap σ' !! l = None)
    ∧ trace σ' =
        trace σ ++ [CellRead lv; New l'; Acquire o; PtrRead o; PtrWrite o; Release o]
                ++ match ptr ob with Some l => [Delete l] | None => [] end.
Proof.
  intros Ho Hm Hlive Hv. destruct ob as [p m]; simpl in Hm; subst m.
  assert (Hnew : ∀ l, p = Some l → l ≠ fresh (dom (heap σ))).
  { intros l ->. apply fresh_cell_differs, Hlive. done. }
  destruct p as [l|].
  - specialize (Hnew l eq_refl).
    eexists _, (fresh (dom (heap σ))). split; [exec; reflexivity|].
    split; [done|]. split; [cbn; same_map|].
    split; [unfold value_of; cbn; simplify_map_eq; done|].
    split; [erewrite is_initialized_run; [| cbn; apply lookup_insert_eq | done]; done|].
    split; [intros l0 [= <-]; cbn; apply lookup_delete_eq|].
    cbn. same_trace.
  - eexists _, (fresh (dom (heap σ))). split; [exec; reflexivity|].
    split; [done|]. split; [cbn; same_map|].
    split; [unfold value_of; cbn; simplify_map_eq; done|].
    split; [erewrite is_initialized_run; [| cbn; apply lookup_insert_eq | done]; done|].
    split; [intros l0 [=]|].
    cbn. same_trace.
Qed.

Lemma assign_value_run {env : environment} σ o ob lv v :
  objs σ !! o = Some ob → mutex ob = 0 → heap σ !! lv = Some v →
  assign_value o lv σ =
    Done o (State (match ptr ob with
                   | Some l => delete l (<[fresh (dom (heap σ)) := v]> (heap σ))
                   | None => <[fresh (dom (heap σ)) := v]> (heap σ)
                   end)
              (<[o := Object (Some (fresh (dom (heap σ)))) 0]> (objs σ))
              (trace σ ++ [CellRead lv; New (fresh (dom (heap σ))); Acquire o;
                           PtrRead o; PtrWrite o; Release o]
                       ++ match ptr ob with Some l => [Delete l] | None => [] end)).
Proof.
  intros Ho Hm Hv. destruct ob as [[l|] m]; simpl in Hm; subst m.
  - exec. f_equal. f_equal; [same_map | same_trace].
  - exec. f_equal. f_equal; [same_map | same_trace].
Qed.

(** C5. [optional_ptr (T const & value)] with a reference to a [T] equal to
    [v] completes; the instance it built answers true to the presence query,
    reading through [operator*] gives [v], the cell it owns is not the one
    the reference denotes, and after any assignment to the original the
    instance still reads as [v]. *)
Theorem from_value_present_and_independent {env : environment} σ o lv v :
  heap σ !! lv = Some v →
  ∃ σ1 l,
    optional_ptr_from o lv σ = Done tt σ1
    ∧ objs σ1 !! o = Some (Object (Some l) 0)
    ∧ l ≠ lv
    ∧ (∃ σ2, is_initialized o σ1 = Done true σ2)
    ∧ (∃ σ2, (r <- operator_star o; cell_load r) σ1 = Done v σ2)
    ∧ (∀ w, ∃ σ2,
         (cell_store lv w;; r <- operator_star o; cell_load r) σ1 = Done v σ2).
Proof.
  intros Hv.
  assert (Hne : lv ≠ fresh (dom (heap σ))) by (apply fresh_cell_differs; eauto).
  eexists _, (fresh (dom (heap σ))).
  split; [apply (optional_ptr_from_run _ _ _ _ Hv)|].
  split; [cbn; apply lookup_insert_eq|].
  split; [done|].
  split; [eexists; erewrite is_initialized_run;
            [| cbn; apply lookup_insert_eq | done]; done|].
  split.
  - eexists. unfold bind at 1.
    erewrite operator_star_run; [| cbn; apply lookup_insert_eq | done | done].
    exec. reflexivity.
  - intros w. eexists. unfold bind at 1. unfold cell_store. cbn.
    rewrite lookup_insert_ne, Hv by done. unfold bind at 1.
    erewrite operator_star_run; [| cbn; apply lookup_insert_eq | done | done].
    exec. reflexivity.
Qed.

(** ** Copy construction and copy assignment *)

Lemma optional_ptr_copy_present_run {env : environment} σ c a l v :
  c ≠ a → objs σ !! a = Some (Object (Some l) 0) → heap σ !! l = Some v →
  optional_ptr_copy c a σ =
    Done tt (State (<[fresh (dom (heap σ)) := v]> (heap σ))
               (<[c := Object (Some (fresh (dom (heap σ)))) 0]> (objs σ))
               (trace σ ++ [Acquire c; Acquire a; PtrRead a; Release a;
                            PtrRead a; PtrRead a; CellRead l;
                            New (fresh (dom (heap σ)));
                            PtrRead c; PtrWrite c; Release c])).
Proof.
  intros Hca Ha Hv. exec. f_equal. f_equal; [same_map | same_trace].
Qed.

Lemma optional_ptr_copy_empty_run {env : environment} σ c a :
  c ≠ a → objs σ !! a = Some (Object None 0) →
  optional_ptr_copy c a σ =
    Done tt (State (heap σ) (<[c := Object None 0]> (objs σ))
               (trace σ ++ [Acquire c; Acquire a; PtrRead a; Release a;
                            PtrRead c; PtrWrite c; Release c])).
Proof.
  intros Hca Ha. exec. f_equal. f_equal; [same_map | same_trace].
Qed.

Lemma assign_copy_present_run {env : environment} σ d s obd l v :
  d ≠ s → objs σ !! d = Some obd → mutex obd = 0 →
  objs σ !! s = Some (Object (Some l) 0) → heap σ !! l = Some v →
  assign_copy d s σ =
    Done d (State (match ptr obd with
                   | Some ld => delete ld (<[fresh (dom (heap σ)) := v]> (heap σ))
                   | None => <[fresh (dom (heap σ)) := v]> (heap σ)
                   end)
              (<[d := Object (Some (fresh (dom (heap σ)))) 0]> (objs σ))
              (trace σ ++ [Acquire d; Acquire s; PtrRead s; Release s;
                           PtrRead s; PtrRead s; CellRead l;
                           New (fresh (dom (heap σ))); PtrRead d; PtrWrite d]
                       ++ match ptr obd with Some ld => [Delete ld] | None => [] end
                       ++ [Release d])).
Proof.
  intros Hds Hd Hm Hs Hv. destruct obd as [[ld|] m]; simpl in Hm; subst m.
  - exec. f_equal. f_equal; [same_map | same_trace].
  - exec. f_equal. f_equal; [same_map | same_trace].
Qed.

(** C6. Copy construction from a distinct instance [a] whose mutex is free
    completes.  If [a] owns a cell holding [v], the new instance is present
    with value [v] in a cell of its own, [a] and every cell live before are
    as they were, and any later
    [operator= (T const &)] on [a] makes [a] hold the assigned value while
    the copy still holds [v].  If [a] is empty, the new instance is empty. *)
Theorem copy_of_present_or_empty {env : environment} σ c a oba :
  c ≠ a → objs σ !! a = Some oba → mutex oba = 0 →
  (∀ l v, ptr oba = Some l → heap σ !! l = Some v →
     ∃ σ1 l',
       optional_ptr_copy c a σ = Done tt σ1
       ∧ objs σ1 !! c = Some (Object (Some l') 0)
       ∧ l' ≠ l
       ∧ value_of σ1 c = Some v
       ∧ (∃ σ2, is_initialized c σ1 = Done true σ2)
       ∧ objs σ1 !! a = Some oba
       ∧ value_of σ1 a = Some v
       ∧ (∀ l0 v0, heap σ !! l0 = Some v0 → heap σ1 !! l0 = Some v0)
       ∧ (∀ lw w, heap σ1 !! lw = Some w →
            ∃ σ2, assign_value a lw σ1 = Done a σ2
                  ∧ value_of σ2 a = Some w
                  ∧ value_of σ2 c = Some v))
  ∧ (ptr oba = None →
     ∃ σ1,
       optional_ptr_copy c a σ = Done tt σ1
       ∧ objs σ1 !! c = Some (Object None 0)
       ∧ value_of σ1 c = None
       ∧ (∃ σ2, is_initialized c σ1 = Done false σ2)).
Proof.
  intros Hca Ha Hm. destruct oba as [p m]; simpl in Hm; subst m. split.
  - intros l v Hp Hv. simpl in Hp; subst p.
    assert (Hne : l ≠ fresh (dom (heap σ))) by (apply fresh_cell_differs; eauto).
    eexists _, (fresh (dom (heap σ))).
    split; [apply (optional_ptr_copy_present_run _ _ _ _ _ Hca Ha Hv)|].
    split; [cbn; apply lookup_insert_eq|].
    split; [done|].
    split; [unfold value_of; cbn; simplify_map_eq; done|].
    split; [eexists; erewrite is_initialized_run;
              [| cbn; apply lookup_insert_eq | done]; done|].
    split; [cbn; rewrite lookup_insert_ne by done; done|].
    split; [unfold value_of; cbn; simplify_map_eq; done|].
    split.
    { intros l0 v0 Hl0. cbn. rewrite lookup_insert_ne; [done|].
      intros <-. rewrite fresh_cell_unused in Hl0. discriminate. }
    intros lw w Hw. eexists.
    split; [eapply assign_value_run; [cbn; rewrite lookup_insert_ne by done; done
                                     | done | done]|].
    cbn. cbn in Hw.
    set (l1 := fresh (dom (heap σ))) in *.
    set (h1 := <[l1 := v]> (heap σ)) in *.
    assert (Hl1 : h1 !! l1 = Some v) by (subst h1; apply lookup_insert_eq).
    assert (Hn2 : l1 ≠ fresh (dom h1)).
    { intros E. pose proof (is_fresh (dom h1)) as Hf. rewrite <- E in Hf.
      apply Hf, elem_of_dom. eauto. }
    split; unfold value_of; cbn.
    + rewrite lookup_insert_eq. cbn.
      rewrite lookup_delete_ne, lookup_insert_eq; [done|].
      intros ->. pose proof (is_fresh (dom h1)) as Hf.
      apply Hf, elem_of_dom. subst h1. rewrite lookup_insert_ne by done. eauto.
    + rewrite lookup_insert_ne, lookup_insert_eq by done. cbn.
      rewrite lookup_delete_ne, lookup_insert_ne by done. done.
  - intros Hp. simpl in Hp; subst p. eexists.
    split; [apply (optional_ptr_copy_empty_run _ _ _ Hca Ha)|].
    split; [cbn; apply lookup_insert_eq|].
    split; [unfold value_of; cbn; simplify_map_eq; done|].
    eexists. erewrite is_initialized_run; [| cbn; apply lookup_insert_eq | done]. done.
Qed.

(** C7. Copy assignment from a present source whose cell holds [v] into a
    distinct destination, empty or owning a live cell, returns the
    destination, which is then present with value [v] in a cell allocated by
    the call: one that did not exist before and is not the source's cell.
    The source still owns its cell. *)
Theorem assign_copy_present_source {env : environment} σ d s obd ls v :
  d ≠ s →
  objs σ !! d = Some obd → mutex obd = 0 → owns_live σ obd →
  objs σ !! s = Some (Object (Some ls) 0) → heap σ !! ls = Some v →
  ∃ σ' l',
    assign_copy d s σ = Done d σ'
    ∧ objs σ' = <[d := Object (Some l') 0]> (objs σ)
    ∧ heap σ !! l' = None
    ∧ l' ≠ ls
    ∧ value_of σ' d = Some v
    ∧ (∃ σ2, is_initialized d σ' = Done true σ2)
    ∧ objs σ' !! s = Some (Object (Some ls) 0).
Proof.
  intros Hds Hd Hm Hlive Hs Hv.
  assert (Hne : ls ≠ fresh (dom (heap σ))) by (apply fresh_cell_differs; eauto).
  eexists _, (fresh (dom (heap σ))).
  split; [apply (assign_copy_present_run _ _ _ _ _ _ Hds Hd Hm Hs Hv)|].
  split; [done|].
  split; [apply fresh_cell_unused|].
  split; [done|].
  split.
  { unfold value_of; cbn. rewrite lookup_insert_eq. cbn.
    destruct (ptr obd) as [ld|] eqn:Hp; [|apply lookup_insert_eq].
    rewrite lookup_delete_ne; [apply lookup_insert_eq|].
    apply fresh_cell_differs, Hlive, Hp. }
  split; [eexists; erewrite is_initialized_run;
            [| cbn; apply lookup_insert_eq | done]; done|].
  cbn. rewrite lookup_insert_ne by done. done.
Qed.

(** ** Locking discipline *)

Lemma events_since_done {A} σ (x : A) h m evs :
  events_since σ (Done x (State h m (trace σ ++ evs))) = evs.
Proof. unfold events_since. cbn. apply drop_app_length. Qed.

Lemma events_since_fault {A} σ f h m evs :
  events_since (A := A) σ (Fault f (State h m (trace σ ++ evs))) = evs.
Proof. unfold events_since. cbn. apply drop_app_length. Qed.

Lemma get_debug_recursive_run σ o ob :
  objs σ !! o = Some ob → mutex ob = 0 → is_Some (ptr ob) →
  get (env := Environment true true) o σ =
    Done (ptr ob)
      (State (heap σ) (objs σ)
         (trace σ ++ [Acquire o; Acquire o; PtrRead o; Release o; PtrRead o; Release o])).
Proof.
  intros Ho Hm [l Hl]. destruct ob as [p m]; simpl in Hm, Hl; subst m p.
  exec. f_equal. f_equal; [same_map | same_trace].
Qed.

Lemma get_debug_recursive_empty_run σ o :
  objs σ !! o = Some (Object None 0) →
  get (env := Environment true true) o σ =
    Fault AssertFailed
      (State (heap σ) (<[o := Object None 1]> (objs σ))
         (trace σ ++ [Acquire o; Acquire o; PtrRead o; Release o])).
Proof.
  intros Ho. exec. f_equal. f_equal; [same_map | same_trace].
Qed.

Lemma get_debug_plain_run σ o ob :
  objs σ !! o = Some ob → mutex ob = 0 →
  get (env := Environment false true) o σ =
    Fault (Relock o)
      (State (heap σ) (<[o := Object (ptr ob) 1]> (objs σ))
         (trace σ ++ [Acquire o; Acquire o])).
Proof.
  intros Ho Hm. destruct ob as [p m]; simpl in Hm; subst m.
  exec. f_equal. f_equal. same_trace.
Qed.

Lemma get_release_run (recursive : bool) σ o ob :
  objs σ !! o = Some ob → mutex ob = 0 →
  get (env := Environment recursive false) o σ =
    Done (ptr ob)
      (State (heap σ) (objs σ) (trace σ ++ [Acquire o; PtrRead o; Release o])).
Proof.
  intros Ho Hm. destruct ob as [p m]; simpl in Hm; subst m.
  exec. f_equal. f_equal; [same_map | same_trace].
Qed.

Lemma acquisitions_cons_acquire o tr :
  acquisitions o (Acquire o :: tr) = S (acquisitions o tr).
Proof. unfold acquisitions. rewrite filter_cons_True by done. done. Qed.

Lemma acquisitions_cons_other o e tr :
  e ≠ Acquire o → acquisitions o (e :: tr) = acquisitions o tr.
Proof. intros. unfold acquisitions. rewrite filter_cons_False by done. done. Qed.

Lemma relock_free_twice o tr : relock_free [] (Acquire o :: Acquire o :: tr) = false.
Proof.
  cbn. rewrite (bool_decide_eq_false_2 (o ∉ [o])); [done|].
  intros Hn. apply Hn. left.
Qed.

(** C2. With [debug_assert] enabled, a call of [get ()] on an instance whose
    mutex is free locks that mutex twice, the second time (inside
    [is_initialized ()]) while the first lock is still held, whether the
    mutex is recursive or not; on a non-recursive mutex the call faults at
    the second lock and produces no result. *)
Theorem get_locks_its_mutex_twice (recursive : bool) σ o ob :
  objs σ !! o = Some ob → mutex ob = 0 →
  acquisitions o
    (events_since σ (get (env := Environment recursive true) o σ)) = 2
  ∧ relock_free []
      (events_since σ (get (env := Environment recursive true) o σ)) = false
  ∧ (recursive = false →
     get (env := Environment recursive true) o σ =
       Fault (Relock o)
         (State (heap σ) (<[o := Object (ptr ob) 1]> (objs σ))
            (trace σ ++ [Acquire o; Acquire o]))).
Proof.
  intros Ho Hm. destruct recursive.
  - destruct (ptr ob) as [l|] eqn:Hp.
    + rewrite (get_debug_recursive_run σ o ob Ho Hm) by (rewrite Hp; eauto).
      rewrite events_since_done.
      split; [|split; [apply relock_free_twice | done]].
      rewrite !acquisitions_cons_acquire.
      rewrite !acquisitions_cons_other by done. done.
    + destruct ob as [p m]; simpl in Hm, Hp; subst m p.
      rewrite (get_debug_recursive_empty_run σ o Ho).
      rewrite events_since_fault.
      split; [|split; [apply relock_free_twice | done]].
      rewrite !acquisitions_cons_acquire.
      rewrite !acquisitions_cons_other by done. done.
  - rewrite (get_debug_plain_run σ o ob Ho Hm). rewrite events_since_fault.
    split; [|split; [apply relock_free_twice | done]].
    rewrite !acquisitions_cons_acquire. done.
Qed.

Lemma unguarded_copy_events o other l l' (tail : list event) :
  o ≠ other →
  (∀ held, o ∈ held → unguarded held tail = []) →
  unguarded []
    ([Acquire o; Acquire other; PtrRead other; Release other;
      PtrRead other; PtrRead other; CellRead l; New l'] ++ tail)
  = [PtrRead other; PtrRead other].
Proof.
  intros Hne Htail. cbn.
  rewrite !(decide_True (P := other = other)) by done.
  rewrite (decide_True (P := other ∈ [other; o])) by constructor.
  rewrite !(decide_False (P := other ∈ [o]))
    by (rewrite list_elem_of_singleton; congruence).
  rewrite Htail by constructor. done.
Qed.

Lemma operator_arrow_run {env : environment} σ o ob :
  objs σ !! o = Some ob → mutex ob = 0 →
  operator_arrow o σ =
    Done (ptr ob)
      (State (heap σ) (objs σ) (trace σ ++ [Acquire o; PtrRead o; Release o])).
Proof.
  intros Ho Hm. destruct ob as [p m]; simpl in Hm; subst m.
  exec. f_equal. f_equal; [same_map | same_trace].
Qed.

(** The other member functions touch [ptr] only between locking and
    unlocking the mutex of the instance. *)
Lemma own_ptr_accesses_guarded {env : environment} σ o ob lv v :
  objs σ !! o = Some ob → mutex ob = 0 → heap σ !! lv = Some v →
  unguarded [] (events_since σ (optional_ptr_empty o σ)) = []
  ∧ unguarded [] (events_since σ (optional_ptr_from o lv σ)) = []
  ∧ unguarded [] (events_since σ (assign_value o lv σ)) = []
  ∧ unguarded [] (events_since σ (is_initialized o σ)) = []
  ∧ unguarded [] (events_since σ (operator_bool o σ)) = []
  ∧ unguarded [] (events_since σ (operator_arrow o σ)) = [].
Proof.
  intros Ho Hm Hv.
  rewrite optional_ptr_empty_run, (optional_ptr_from_run σ o lv v Hv),
    (assign_value_run σ o ob lv v Ho Hm Hv), (is_initialized_run σ o ob Ho Hm),
    (operator_bool_run σ o ob Ho Hm), (operator_arrow_run σ o ob Ho Hm).
  rewrite !events_since_done.
  repeat split; cbn; rewrite ?(decide_True (P := o ∈ [o])) by constructor;
    try done.
  destruct (ptr ob); done.
Qed.

(** C3. Copy construction and copy assignment from a present instance
    [other] read [other]'s [ptr] twice after [other]'s mutex has been
    unlocked again (once for the condition, once for [*other.ptr]); these two
    reads are all the accesses to a [ptr] member that either call makes
    without the mutex of the instance concerned. *)
Theorem copy_reads_other_ptr_unguarded {env : environment} σ o other obo l v :
  o ≠ other →
  objs σ !! o = Some obo → mutex obo = 0 →
  objs σ !! other = Some (Object (Some l) 0) → heap σ !! l = Some v →
  unguarded [] (events_since σ (optional_ptr_copy o other σ))
    = [PtrRead other; PtrRead other]
  ∧ unguarded [] (events_since σ (assign_copy o other σ))
    = [PtrRead other; PtrRead other].
Proof.
  intros Hne Ho Hm Hother Hv. split.
  - rewrite (optional_ptr_copy_present_run σ o other l v Hne Hother Hv).
    rewrite events_since_done.
    apply (unguarded_copy_events o other l _ [PtrRead o; PtrWrite o; Release o] Hne).
    intros held Hin. cbn. rewrite !(decide_True (P := o ∈ held)) by done. done.
  - rewrite (assign_copy_present_run σ o other obo l v Hne Ho Hm Hother Hv).
    rewrite events_since_done.
    apply (unguarded_copy_events o other l _
             ([PtrRead o; PtrWrite o]
                ++ match ptr obo with Some ld => [Delete ld] | None => [] end
                ++ [Release o]) Hne).
    intros held Hin. cbn. rewrite !(decide_True (P := o ∈ held)) by done.
    destruct (ptr obo); done.
Qed.

(** ** Self-assignment *)

(** C10. With a non-recursive [nano::mutex], copy assignment of an instance
    to itself, present or empty, locks the mutex, evaluates [other], whose
    boolean conversion locks the same mutex again, and faults there: no
    result is produced and [ptr] is never reached. *)
Theorem self_assignment_relocks (debug : bool) σ a ob :
  objs σ !! a = Some ob → mutex ob = 0 →
  assign_copy (env := Environment false debug) a a σ =
    Fault (Relock a)
      (State (heap σ) (<[a := Object (ptr ob) 1]> (objs σ))
         (trace σ ++ [Acquire a; Acquire a])).
Proof.
  intros Ho Hm. destruct ob as [p m]; simpl in Hm; subst m.
  exec. f_equal. f_equal. same_trace.
Qed.

(** Were the mutex recursive, the data flow of self-assignment would keep
    the value: the copy is made before the old cell is released. *)
Lemma self_assignment_recursive_mutex (debug : bool) σ a l v :
  objs σ !! a = Some (Object (Some l) 0) → heap σ !! l = Some v →
  ∃ σ', assign_copy (env := Environment true debug) a a σ = Done a σ'
        ∧ value_of σ' a = Some v.
Proof.
  intros Ho Hv.
  assert (Hne : l ≠ fresh (dom (heap σ))) by (apply fresh_cell_differs; eauto).
  eexists. split; [exec; reflexivity|].
  unfold value_of. cbn. simplify_map_eq. done.
Qed.

Lemma self_assignment_recursive_mutex_empty (debug : bool) σ a :
  objs σ !! a = Some (Object None 0) →
  ∃ σ', assign_copy (env := Environment true debug) a a σ = Done a σ'
        ∧ objs σ' !! a = Some (Object None 0).
Proof.
  intros Ho. eexists. split; [exec; reflexivity|].
  cbn. simplify_map_eq. done.
Qed.

End Proofs.

(** * The theorems at work on [store_ab] *)

Lemma assign_copy_empty_source_unchanged_witness :
  assign_copy (env := debug_build) 0 1 store_ab =
    Done 0 (State (heap store_ab) (objs store_ab)
              [Acquire 0; Acquire 1; PtrRead 1; Release 1; Release 0]).
Proof.
  apply (assign_copy_empty_source_unchanged (env := debug_build)
           store_ab 0 1 (Object (Some 5%positive) 0));
    [lia | reflexivity | reflexivity | reflexivity].
Defined.

Lemma get_locks_its_mutex_twice_witness :
  acquisitions 0 (events_since store_ab (get (env := debug_build) 0 store_ab)) = 2
  ∧ get (env := debug_build) 0 store_ab =
      Fault (Relock 0)
        (State (heap store_ab) (<[0 := Object (Some 5%positive) 1]> (objs store_ab))
           [Acquire 0; Acquire 0]).
Proof.
  pose proof (get_locks_its_mutex_twice false store_ab 0
                (Object (Some 5%positive) 0) eq_refl eq_refl) as (Hn & _ & Hf).
  split; [exact Hn | exact (Hf eq_refl)].
Defined.

Lemma copy_reads_other_ptr_unguarded_witness :
  unguarded [] (events_since store_ab (optional_ptr_copy (env := debug_build) 1 0 store_ab))
    = [PtrRead 0; PtrRead 0]
  ∧ unguarded [] (events_since store_ab (assign_copy (env := debug_build) 1 0 store_ab))
    = [PtrRead 0; PtrRead 0].
Proof.
  apply (copy_reads_other_ptr_unguarded (env := debug_build)
           store_ab 1 0 (Object None 0) 5%positive 42);
    [lia | reflexivity | reflexivity | reflexivity | reflexivity].
Defined.

Lemma assign_value_installs_copy_witness :
  ∃ σ' l',
    assign_value (env := debug_build) 0 9%positive store_ab = Done 0 σ'
    ∧ value_of σ' 0 = Some 7
    ∧ heap σ' !! 5%positive = None
    ∧ trace σ' = [CellRead 9%positive; New l'; Acquire 0; PtrRead 0; PtrWrite 0;
                  Release 0; Delete 5%positive].
Proof.
  destruct (assign_value_installs_copy (env := debug_build)
              store_ab 0 (Object (Some 5%positive) 0) 9%positive 7)
    as (σ' & l' & Hrun & _ & _ & Hval & _ & Hold & Htr).
  - reflexivity.
  - reflexivity.
  - intros l [= <-]. exists 42. reflexivity.
  - reflexivity.
  - exists σ', l'. split; [exact Hrun|]. split; [exact Hval|].
    split; [exact (Hold 5%positive eq_refl) | exact Htr].
Defined.

Lemma from_value_present_and_independent_witness :
  ∃ σ1 σ2,
    optional_ptr_from (env := debug_build) 2 9%positive store_ab = Done tt σ1
    ∧ (cell_store 9%positive 1000;; r <- operator_star (env := debug_build) 2; cell_load r) σ1 = Done 7 σ2.
Proof.
  destruct (from_value_present_and_independent (env := debug_build)
              store_ab 2 9%positive 7 eq_refl)
    as (σ1 & l & Hrun & _ & _ & _ & _ & Hind).
  destruct (Hind 1000) as (σ2 & Hread).
  exists σ1, σ2. split; [exact Hrun | exact Hread].
Defined.

Lemma copy_of_present_or_empty_witness :
  (∃ σ1 σ2,
     optional_ptr_copy (env := debug_build) 2 0 store_ab = Done tt σ1
     ∧ value_of σ1 2 = Some 42
     ∧ heap σ1 !! 9%positive = Some 7
     ∧ assign_value (env := debug_build) 0 9%positive σ1 = Done 0 σ2
     ∧ value_of σ2 0 = Some 7
     ∧ value_of σ2 2 = Some 42)
  ∧ (∃ σ1,
       optional_ptr_copy (env := debug_build) 2 1 store_ab = Done tt σ1
       ∧ value_of σ1 2 = None).
Proof.
  split.
  - destruct (proj1 (copy_of_present_or_empty (env := debug_build)
                       store_ab 2 0 (Object (Some 5%positive) 0)
                       ltac:(lia) eq_refl eq_refl)
                5%positive 42 eq_refl eq_refl)
      as (σ1 & l' & Hrun & _ & _ & Hval & _ & _ & _ & Hkept & Hind).
    pose proof (Hkept 9%positive 7 eq_refl) as Hcell.
    destruct (Hind 9%positive 7 Hcell) as (σ2 & Hrun2 & Ha & Hc).
    exists σ1, σ2. repeat split; assumption.
  - destruct (proj2 (copy_of_present_or_empty (env := debug_build)
                       store_ab 2 1 (Object None 0)
                       ltac:(lia) eq_refl eq_refl)
                eq_refl)
      as (σ1 & Hrun & _ & Hval & _).
    exists σ1. split; assumption.
Defined.

Lemma assign_copy_present_source_witness :
  ∃ σ' l',
    assign_copy (env := debug_build) 1 0 store_ab = Done 1 σ'
    ∧ objs σ' !! 1 = Some (Object (Some l') 0)
    ∧ l' ≠ 5%positive
    ∧ value_of σ' 1 = Some 42.
Proof.
  destruct (assign_copy_present_source (env := debug_build)
              store_ab 1 0 (Object None 0) 5%positive 42)
    as (σ' & l' & Hrun & Hobjs & _ & Hne & Hval & _).
  - lia.
  - reflexivity.
  - reflexivity.
  - intros l [=].
  - reflexivity.
  - reflexivity.
  - exists σ', l'. split; [exact Hrun|].
    split; [rewrite Hobjs; apply lookup_insert_eq|].
    split; [exact Hne | exact Hval].
Defined.

Lemma self_assignment_relocks_witness :
  assign_copy (env := debug_build) 0 0 store_ab =
    Fault (Relock 0)
      (State (heap store_ab) (<[0 := Object (Some 5%positive) 1]> (objs store_ab))
         [Acquire 0; Acquire 0]).
Proof.
  apply (self_assignment_relocks true store_ab 0 (Object (Some 5%positive) 0));
    reflexivity.
Defined.

(** * Further properties of the member functions *)

Ltac exec_uses := unfold read, write, optional_ptr_destroy, destroy_members; exec.

Section Access.
Context {T : Type}.
Implicit Types (σ : state T) (o d s a c : oid) (ob : object) (l : loc) (v w : T).

(** ** Destruction *)

Lemma optional_ptr_destroy_run {env : environment} σ o ob :
  objs σ !! o = Some ob → mutex ob = 0 →
  optional_ptr_destroy o σ =
    Done tt (State (match ptr ob with
                    | Some l => delete l (heap σ)
                    | None => heap σ
                    end)
               (delete o (objs σ))
               (trace σ ++ [Acquire o; PtrRead o; PtrWrite o]
                        ++ match ptr ob with Some l => [Delete l] | None => [] end
                        ++ [Release o])).
Proof.
  intros Ho Hm. destruct ob as [[l|] m]; simpl in Hm; subst m.
  - exec_uses. f_equal. f_equal; [same_map | same_trace].
  - exec_uses. f_equal. f_equal; [same_map | same_trace].
Qed.

(** X1. The destructor of an instance whose mutex is free completes: the
    instance is gone, the cell it owned (if any) is released exactly once,
    between locking and unlocking the mutex, and every other cell and every
    other instance is as before. *)
Theorem destroy_releases_owned_cell {env : environment} σ o ob :
  objs σ !! o = Some ob → mutex ob = 0 →
  ∃ σ',
    optional_ptr_destroy o σ = Done tt σ'
    ∧ objs σ' = delete o (objs σ)
    ∧ (∀ l, ptr ob = Some l → heap σ' !! l = None)
    ∧ (∀ l, ptr ob ≠ Some l → heap σ' !! l = heap σ !! l)
    ∧ events_since σ (optional_ptr_destroy o σ) =
        [Acquire o; PtrRead o; PtrWrite o]
          ++ match ptr ob with Some l => [Delete l] | None => [] end
          ++ [Release o].
Proof.
  intros Ho Hm. rewrite (optional_ptr_destroy_run σ o ob Ho Hm).
  eexists. split; [reflexivity|]. cbn [objs heap].
  split; [done|]. split; [|split].
  - intros l ->. apply lookup_delete_eq.
  - intros l Hl. destruct (ptr ob) as [l0|]; [|done].
    apply lookup_delete_ne. congruence.
  - apply events_since_done.
Qed.

(** ** Access to the value *)



(** X3. Where [debug_assert] expands to nothing, [get ()] on any instance
    whose mutex is free, empty ones included, returns [ptr] as it is (null
    when empty) without a fault, leaves heap and instances unchanged, and
    locks the mutex exactly once and never while it is held. *)
Theorem get_without_debug_assert (recursive : bool) σ o ob :
  objs σ !! o = Some ob → mutex ob = 0 →
  ∃ σ',
    get (env := Environment recursive false) o σ = Done (ptr ob) σ'
    ∧ heap σ' = heap σ ∧ objs σ' = objs σ
    ∧ acquisitions o
        (events_since σ (get (env := Environment recursive false) o σ)) = 1
    ∧ relock_free []
        (events_since σ (get (env := Environment recursive false) o σ)) = true.
Proof.
  intros Ho Hm. rewrite (get_release_run recursive σ o ob Ho Hm).
  eexists. split; [reflexivity|]. split; [done|]. split; [done|].
  rewrite events_since_done. split.
  - rewrite acquisitions_cons_acquire. rewrite !acquisitions_cons_other by done.
    done.
  - cbn. rewrite bool_decide_eq_true_2; [done|]. apply not_elem_of_nil.
Qed.

(** X4. On a present instance whose mutex is free, [operator*],
    [operator->] and [get ()] (without [debug_assert]) all return the cell
    the instance owns and end in the same store, with heap and instances
    unchanged. *)
Theorem accessors_agree (recursive : bool) σ o l :
  objs σ !! o = Some (Object (Some l) 0) →
  ∃ σ',
    operator_star (env := Environment recursive false) o σ = Done l σ'
    ∧ operator_arrow (env := Environment recursive false) o σ = Done (Some l) σ'
    ∧ get (env := Environment recursive false) o σ = Done (Some l) σ'
    ∧ heap σ' = heap σ ∧ objs σ' = objs σ.
Proof.
  intros Ho.
  rewrite (operator_star_run σ o _ l Ho eq_refl eq_refl).
  rewrite (operator_arrow_run σ o _ Ho eq_refl).
  rewrite (get_release_run recursive σ o _ Ho eq_refl).
  eexists. repeat split; reflexivity.
Qed.

Lemma read_run {env : environment} σ o l v :
  objs σ !! o = Some (Object (Some l) 0) → heap σ !! l = Some v →
  read o σ =
    Done v (State (heap σ) (objs σ)
              (trace σ ++ [Acquire o; PtrRead o; Release o; CellRead l])).
Proof.
  intros Ho Hv. unfold read, bind.
  rewrite (operator_star_run σ o _ l Ho eq_refl eq_refl).
  unfold cell_load. cbn. rewrite Hv. f_equal. f_equal. same_trace.
Qed.

Lemma write_run {env : environment} σ o l v w :
  objs σ !! o = Some (Object (Some l) 0) → heap σ !! l = Some v →
  write o w σ =
    Done tt (State (<[l := w]> (heap σ)) (objs σ)
               (trace σ ++ [Acquire o; PtrRead o; Release o])).
Proof.
  intros Ho Hv. unfold write, bind.
  rewrite (operator_star_run σ o _ l Ho eq_refl eq_refl).
  unfold cell_store. cbn. rewrite Hv. done.
Qed.

(** X5. The reference [operator*] returns denotes the owned cell itself:
    after [*x = w] on a present instance, [*x] reads [w], the instance still
    owns the same cell, and no other cell is changed. *)
Theorem write_then_read {env : environment} σ o l v w :
  objs σ !! o = Some (Object (Some l) 0) → heap σ !! l = Some v →
  ∃ σ',
    (write o w;; read o) σ = Done w σ'
    ∧ objs σ' = objs σ
    ∧ heap σ' = <[l := w]> (heap σ).
Proof.
  intros Ho Hv. unfold bind at 1. rewrite (write_run σ o l v w Ho Hv).
  erewrite read_run; [| exact Ho | cbn; apply lookup_insert_eq].
  eexists. repeat split; reflexivity.
Qed.

Lemma ask_all_run {env : environment} o ob qs σ :
  objs σ !! o = Some ob → mutex ob = 0 →
  ∃ σ', ask_all o qs σ = Done (const (bool_decide (is_Some (ptr ob))) <$> qs) σ'
        ∧ objs σ' = objs σ ∧ heap σ' = heap σ.
Proof.
  intros Ho Hm. revert σ Ho. induction qs as [|q qs IH]; intros σ Ho.
  - exists σ. done.
  - cbn [ask_all]. unfold bind at 1. rewrite (ask_run σ o ob q Ho Hm).
    destruct (IH (State (heap σ) (objs σ)
                    (trace σ ++ [Acquire o; PtrRead o; Release o])) Ho)
      as (σ' & Hrun & Hobjs & Hheap).
    exists σ'. unfold bind, ret. rewrite Hrun. done.
Qed.

(** X6. Presence queries only observe: any sequence of [operator bool] and
    [is_initialized] calls on an instance whose mutex is free completes,
    every answer says whether [ptr] is non-null, and heap and instances are
    unchanged, so the value is still readable afterwards. *)
Theorem queries_only_observe {env : environment} σ o ob qs :
  objs σ !! o = Some ob → mutex ob = 0 →
  ∃ σ',
    ask_all o qs σ = Done (const (bool_decide (is_Some (ptr ob))) <$> qs) σ'
    ∧ objs σ' = objs σ ∧ heap σ' = heap σ
    ∧ value_of σ' o = value_of σ o.
Proof.
  intros Ho Hm. destruct (ask_all_run o ob qs σ Ho Hm) as (σ' & Hrun & Hobjs & Hheap).
  exists σ'. repeat split; try done. unfold value_of. rewrite Hobjs, Hheap. done.
Qed.

End Access.

Section Lifetime.
Context {T : Type}.
Implicit Types (σ : state T) (o d s a c : oid) (ob : object) (l t : loc) (v w : T).

(** ** Repeated assignment and destruction *)

Lemma last_cons_default (ws : list T) v w :
  List.last (w :: ws) v = List.last ws w.
Proof.
  revert v w. induction ws as [|w' ws IH]; intros v w; [done|].
  change (List.last (w :: w' :: ws) v) with (List.last (w' :: ws) v).
  rewrite (IH v w'), (IH w w'). done.
Qed.

Lemma replace_only_cell (h0 : gmap loc T) l l' v w :
  h0 !! l = None → l ≠ l' →
  delete l (<[l' := w]> (<[l := v]> h0)) = <[l' := w]> h0.
Proof.
  intros Hl Hne. apply map_eq; intros i.
  destruct (decide (i = l)) as [->|]; [|destruct (decide (i = l')) as [->|]];
    simplify_map_eq; done.
Qed.

Lemma fresh_after_insert (h0 : gmap loc T) l v :
  h0 !! fresh (dom (<[l := v]> h0)) = None
  ∧ l ≠ fresh (dom (<[l := v]> h0)).
Proof.
  pose proof (is_fresh (dom (<[l := v]> h0))) as Hf.
  apply not_elem_of_dom in Hf.
  assert (Hne : l ≠ fresh (dom (<[l := v]> h0))).
  { intros E. rewrite <- E, lookup_insert_eq in Hf. discriminate. }
  split; [|exact Hne]. rewrite lookup_insert_ne in Hf by exact Hne. exact Hf.
Qed.

(** The loop keeps exactly one cell beside the cells [h0] it started
    with, holding the value assigned last. *)
Lemma assign_all_run {env : environment} o ts ws :
  ∀ σ (h0 : gmap loc T) l v,
    heap σ = <[l := v]> h0 → h0 !! l = None →
    objs σ !! o = Some (Object (Some l) 0) →
    Forall2 (λ t w, h0 !! t = Some w) ts ws →
    ∃ σ' l',
      assign_all o ts σ = Done tt σ'
      ∧ heap σ' = <[l' := List.last ws v]> h0
      ∧ h0 !! l' = None
      ∧ objs σ' = <[o := Object (Some l') 0]> (objs σ).
Proof.
  intros σ h0 l v Hheap Hl Ho Hts. revert σ l v Hheap Hl Ho.
  induction Hts as [|t w ts ws Ht Hts IH]; intros σ l v Hheap Hl Ho.
  - exists σ, l. cbn. split; [done|]. split; [done|]. split; [done|].
    symmetry. apply insert_id. done.
  - cbn [assign_all]. unfold bind at 1.
    assert (Htl : t ≠ l) by congruence.
    assert (Hlive : heap σ !! t = Some w).
    { rewrite Hheap, lookup_insert_ne by done. done. }
    rewrite (assign_value_run σ o _ t w Ho eq_refl Hlive). cbn [ptr].
    rewrite Hheap.
    destruct (fresh_after_insert h0 l v) as [Hfresh Hne].
    set (l1 := fresh (dom (<[l := v]> h0))) in *.
    rewrite (replace_only_cell h0 l l1 v w Hl Hne).
    edestruct (IH (State (<[l1 := w]> h0)
                     (<[o := Object (Some l1) 0]> (objs σ))
                     (trace σ ++ [CellRead t; New l1; Acquire o; PtrRead o;
                                  PtrWrite o; Release o] ++ [Delete l]))
                 l1 w)
      as (σ' & l' & Hrun & Hheap' & Hl' & Hobjs'); [done | done | |].
    { cbn. apply lookup_insert_eq. }
    exists σ', l'. split; [exact Hrun|].
    rewrite last_cons_default. split; [done|]. split; [done|].
    rewrite Hobjs'. cbn. apply insert_insert_eq.
Qed.

(** X7. An instance built from a value in unused storage, assigned any
    number of live values in a loop and then destroyed leaves the store as
    it found it: the same instances, and exactly the cells that were live
    before, each with its value.  No cell is leaked, whatever the length of
    the loop. *)
Theorem construct_assign_destroy_restores {env : environment} σ o lv v ts ws :
  objs σ !! o = None →
  heap σ !! lv = Some v →
  Forall2 (λ t w, heap σ !! t = Some w) ts ws →
  ∃ σ',
    (optional_ptr_from o lv;; assign_all o ts;; optional_ptr_destroy o) σ
      = Done tt σ'
    ∧ heap σ' = heap σ
    ∧ objs σ' = objs σ.
Proof.
  intros Ho Hv Hts. unfold bind at 1.
  rewrite (optional_ptr_from_run σ o lv v Hv).
  set (l0 := fresh (dom (heap σ))).
  edestruct (assign_all_run o ts ws
               (State (<[l0 := v]> (heap σ))
                  (<[o := Object (Some l0) 0]> (objs σ))
                  (trace σ ++ [Acquire o; CellRead lv; New l0; PtrRead o;
                               PtrWrite o; Release o]))
               (heap σ) l0 v)
    as (σ1 & l1 & Hrun & Hheap1 & Hl1 & Hobjs1); [done | | | exact Hts |].
  { apply fresh_cell_unused. }
  { cbn. apply lookup_insert_eq. }
  unfold bind at 1. rewrite Hrun.
  rewrite (optional_ptr_destroy_run σ1 o (Object (Some l1) 0));
    [| rewrite Hobjs1; apply lookup_insert_eq | done].
  eexists. split; [reflexivity|]. cbn [heap objs ptr]. split.
  - rewrite Hheap1. apply map_eq; intros i.
    destruct (decide (i = l1)) as [->|]; simplify_map_eq; done.
  - rewrite Hobjs1. cbn. apply map_eq; intros i.
    destruct (decide (i = o)) as [->|]; simplify_map_eq; done.
Qed.

(** X8. After construction from [v] and a loop of assignments, reading
    the instance gives the value assigned last ([v] itself when the loop is
    empty). *)
Theorem construct_assign_reads_last {env : environment} σ o lv v ts ws :
  heap σ !! lv = Some v →
  Forall2 (λ t w, heap σ !! t = Some w) ts ws →
  ∃ σ',
    (optional_ptr_from o lv;; assign_all o ts;; read o) σ
      = Done (List.last ws v) σ'.
Proof.
  intros Hv Hts. unfold bind at 1.
  rewrite (optional_ptr_from_run σ o lv v Hv).
  set (l0 := fresh (dom (heap σ))).
  edestruct (assign_all_run o ts ws
               (State (<[l0 := v]> (heap σ))
                  (<[o := Object (Some l0) 0]> (objs σ))
                  (trace σ ++ [Acquire o; CellRead lv; New l0; PtrRead o;
                               PtrWrite o; Release o]))
               (heap σ) l0 v)
    as (σ1 & l1 & Hrun & Hheap1 & Hl1 & Hobjs1); [done | | | exact Hts |].
  { apply fresh_cell_unused. }
  { cbn. apply lookup_insert_eq. }
  unfold bind at 1. rewrite Hrun.
  erewrite (read_run σ1 o l1);
    [| rewrite Hobjs1; apply lookup_insert_eq
     | rewrite Hheap1; apply lookup_insert_eq].
  eexists. reflexivity.
Qed.

(** X9. [x = *x]: assigning to a present instance the value its own
    [operator*] refers to completes and keeps the value; the copy is made
    before the old cell is released, so the instance ends up owning a new
    cell and the old one is gone. *)
Theorem assign_own_value {env : environment} σ o l v :
  objs σ !! o = Some (Object (Some l) 0) → heap σ !! l = Some v →
  ∃ σ' l',
    (r <- operator_star o; assign_value o r) σ = Done o σ'
    ∧ objs σ' !! o = Some (Object (Some l') 0)
    ∧ l' ≠ l
    ∧ value_of σ' o = Some v
    ∧ heap σ' !! l = None.
Proof.
  intros Ho Hv. unfold bind at 1.
  rewrite (operator_star_run σ o _ l Ho eq_refl eq_refl).
  erewrite assign_value_run; [| exact Ho | done | exact Hv].
  assert (Hne : l ≠ fresh (dom (heap σ))) by (apply fresh_cell_differs; eauto).
  eexists _, (fresh (dom (heap σ))). split; [reflexivity|].
  cbn [objs heap ptr]. split; [apply lookup_insert_eq|]. split; [done|].
  split; [|apply lookup_delete_eq].
  unfold value_of. cbn. rewrite lookup_insert_eq. cbn.
  rewrite lookup_delete_ne, lookup_insert_eq by done. done.
Qed.

(** ** Copies outlive and ignore their source *)

(** X10. A copy-constructed instance does not depend on its source: once
    the source has been destroyed, the copy still reads the value the source
    had. *)
Theorem copy_survives_source {env : environment} σ c a l v :
  c ≠ a → objs σ !! a = Some (Object (Some l) 0) → heap σ !! l = Some v →
  ∃ σ',
    (optional_ptr_copy c a;; optional_ptr_destroy a;; read c) σ = Done v σ'
    ∧ objs σ' !! a = None
    ∧ heap σ' !! l = None.
Proof.
  intros Hca Ha Hv. unfold bind at 1.
  rewrite (optional_ptr_copy_present_run σ c a l v Hca Ha Hv).
  assert (Hne : l ≠ fresh (dom (heap σ))) by (apply fresh_cell_differs; eauto).
  set (l1 := fresh (dom (heap σ))) in *.
  unfold bind at 1.
  erewrite (optional_ptr_destroy_run _ a (Object (Some l) 0));
    [| cbn; rewrite lookup_insert_ne by done; exact Ha | done].
  cbn [heap objs trace ptr].
  erewrite (read_run _ c l1 v);
    [| cbn; rewrite lookup_delete_ne, lookup_insert_eq by done; done
     | cbn; rewrite lookup_delete_ne, lookup_insert_eq by done; done].
  eexists. split; [reflexivity|]. cbn.
  split; apply lookup_delete_eq.
Qed.

(** X11. The same after copy assignment: when the destination does not
    share the source's cell, it still reads the source's value after the
    source has been destroyed. *)
Theorem assigned_copy_survives_source {env : environment} σ d s obd l v :
  d ≠ s →
  objs σ !! d = Some obd → mutex obd = 0 → owns_live σ obd → ptr obd ≠ Some l →
  objs σ !! s = Some (Object (Some l) 0) → heap σ !! l = Some v →
  ∃ σ',
    (assign_copy d s;; optional_ptr_destroy s;; read d) σ = Done v σ'
    ∧ objs σ' !! s = None
    ∧ heap σ' !! l = None.
Proof.
  intros Hds Hd Hm Hlive Hshare Hs Hv. unfold bind at 1.
  rewrite (assign_copy_present_run σ d s obd l v Hds Hd Hm Hs Hv).
  assert (Hne : l ≠ fresh (dom (heap σ))) by (apply fresh_cell_differs; eauto).
  assert (Hold : ∀ ld, ptr obd = Some ld → ld ≠ fresh (dom (heap σ))).
  { intros ld Hld. apply fresh_cell_differs, Hlive, Hld. }
  set (l1 := fresh (dom (heap σ))) in *.
  unfold bind at 1.
  erewrite (optional_ptr_destroy_run _ s (Object (Some l) 0));
    [| cbn; rewrite lookup_insert_ne by done; exact Hs | done].
  cbn [heap objs trace ptr].
  erewrite (read_run _ d l1 v).
  - eexists. split; [reflexivity|]. cbn. split; apply lookup_delete_eq.
  - cbn. rewrite lookup_delete_ne, lookup_insert_eq by done. done.
  - cbn. rewrite lookup_delete_ne by done.
    destruct (ptr obd) as [ld|] eqn:Hp.
    + rewrite lookup_delete_ne by (apply Hold; done). apply lookup_insert_eq.
    + apply lookup_insert_eq.
Qed.

(** X12. A copy and its source own different cells: a write through the
    reference of one is not seen through the other, in either direction. *)
Theorem copy_ignores_writes {env : environment} σ c a l v w :
  c ≠ a → objs σ !! a = Some (Object (Some l) 0) → heap σ !! l = Some v →
  (∃ σ', (optional_ptr_copy c a;; write c w;; read a) σ = Done v σ')
  ∧ (∃ σ', (optional_ptr_copy c a;; write c w;; read c) σ = Done w σ')
  ∧ (∃ σ', (optional_ptr_copy c a;; write a w;; read c) σ = Done v σ')
  ∧ (∃ σ', (optional_ptr_copy c a;; write a w;; read a) σ = Done w σ').
Proof.
  intros Hca Ha Hv.
  assert (Hne : l ≠ fresh (dom (heap σ))) by (apply fresh_cell_differs; eauto).
  repeat split; unfold bind at 1;
    rewrite (optional_ptr_copy_present_run σ c a l v Hca Ha Hv);
    set (l1 := fresh (dom (heap σ))) in *; unfold bind at 1.
  - erewrite (write_run _ c l1 v w); [| cbn; simplify_map_eq; done ..].
    erewrite (read_run _ a l v); [| cbn; simplify_map_eq; done ..].
    eexists; reflexivity.
  - erewrite (write_run _ c l1 v w); [| cbn; simplify_map_eq; done ..].
    erewrite (read_run _ c l1 w); [| cbn; simplify_map_eq; done ..].
    eexists; reflexivity.
  - erewrite (write_run _ a l v w); [| cbn; simplify_map_eq; done ..].
    erewrite (read_run _ c l1 v); [| cbn; simplify_map_eq; done ..].
    eexists; reflexivity.
  - erewrite (write_run _ a l v w); [| cbn; simplify_map_eq; done ..].
    erewrite (read_run _ a l w); [| cbn; simplify_map_eq; done ..].
    eexists; reflexivity.
Qed.

End Lifetime.

Section Ownership.
Context {T : Type}.
Implicit Types (σ : state T) (o d s a c : oid) (ob : object) (l t : loc) (v w : T).

(** ** Exclusive ownership is an invariant *)

Lemma well_formed_update σ o (p' : option loc) (h' : gmap loc T) tr :
  well_formed σ →
  (∀ o' ob' l, o' ≠ o → objs σ !! o' = Some ob' → ptr ob' = Some l →
     is_Some (h' !! l) ∧ p' ≠ Some l) →
  (∀ l, p' = Some l → is_Some (h' !! l)) →
  well_formed (State h' (<[o := Object p' 0]> (objs σ)) tr).
Proof.
  intros (Hq & Hlive & Hex) Hothers Hown. split; [|split].
  - intros o1 ob1. cbn. destruct (decide (o1 = o)) as [->|Hne].
    + rewrite lookup_insert_eq. intros [= <-]. done.
    + rewrite lookup_insert_ne by done. apply Hq.
  - intros o1 ob1. cbn. destruct (decide (o1 = o)) as [->|Hne].
    + rewrite lookup_insert_eq. intros [= <-] l Hl. cbn in *. apply Hown, Hl.
    + rewrite lookup_insert_ne by done. intros H1 l Hl. cbn.
      apply (Hothers o1 ob1 l Hne H1 Hl).
  - intros o1 o2 ob1 ob2 l. cbn.
    destruct (decide (o1 = o)) as [->|Hne1], (decide (o2 = o)) as [->|Hne2];
      [done | | |].
    + rewrite lookup_insert_eq, lookup_insert_ne by done.
      intros [= <-] H2 Hl1 Hl2. cbn in Hl1.
      destruct (Hothers o2 ob2 l Hne2 H2 Hl2) as [_ Hp]. done.
    + rewrite lookup_insert_eq, lookup_insert_ne by done.
      intros H1 [= <-] Hl1 Hl2. cbn in Hl2.
      destruct (Hothers o1 ob1 l Hne1 H1 Hl1) as [_ Hp]. done.
    + rewrite !lookup_insert_ne by done. apply Hex.
Qed.

Lemma well_formed_remove σ o (h' : gmap loc T) tr :
  well_formed σ →
  (∀ o' ob' l, o' ≠ o → objs σ !! o' = Some ob' → ptr ob' = Some l →
     is_Some (h' !! l)) →
  well_formed (State h' (delete o (objs σ)) tr).
Proof.
  intros (Hq & Hlive & Hex) Hothers. split; [|split].
  - intros o1 ob1. cbn. intros [Hne H1]%lookup_delete_Some. apply (Hq o1), H1.
  - intros o1 ob1. cbn. intros [Hne H1]%lookup_delete_Some l Hl. cbn.
    apply (Hothers o1 ob1 l); done.
  - intros o1 o2 ob1 ob2 l. cbn.
    intros [_ H1]%lookup_delete_Some [_ H2]%lookup_delete_Some.
    apply Hex; done.
Qed.

Lemma well_formed_same_store σ tr :
  well_formed σ → well_formed (State (heap σ) (objs σ) tr).
Proof. destruct σ. done. Qed.

(** In a well-formed store the cells of the other instances survive when
    instance [o] replaces its cell by a new one. *)
Lemma others_survive_replace σ o ob v :
  well_formed σ → objs σ !! o = Some ob →
  ∀ o' ob' l, o' ≠ o → objs σ !! o' = Some ob' → ptr ob' = Some l →
    is_Some ((match ptr ob with
              | Some ld => delete ld (<[fresh (dom (heap σ)) := v]> (heap σ))
              | None => <[fresh (dom (heap σ)) := v]> (heap σ)
              end) !! l)
    ∧ Some (fresh (dom (heap σ))) ≠ Some l.
Proof.
  intros (Hq & Hlive & Hex) Ho o' ob' l Hne Ho' Hl.
  pose proof (Hlive o' ob' Ho' l Hl) as Hl_live.
  pose proof (fresh_cell_differs σ l Hl_live) as Hfresh.
  split; [|congruence].
  destruct (ptr ob) as [ld|] eqn:Hp.
  - assert (ld ≠ l).
    { intros ->. apply Hne. apply (Hex o' o ob' ob l); done. }
    rewrite lookup_delete_ne, lookup_insert_ne by done. done.
  - rewrite lookup_insert_ne by done. done.
Qed.

Lemma others_survive_new σ o v :
  well_formed σ →
  ∀ o' ob' l, o' ≠ o → objs σ !! o' = Some ob' → ptr ob' = Some l →
    is_Some (<[fresh (dom (heap σ)) := v]> (heap σ) !! l)
    ∧ Some (fresh (dom (heap σ))) ≠ Some l.
Proof.
  intros (Hq & Hlive & Hex) o' ob' l Hne Ho' Hl.
  pose proof (Hlive o' ob' Ho' l Hl) as Hl_live.
  pose proof (fresh_cell_differs σ l Hl_live) as Hfresh.
  split; [|congruence]. rewrite lookup_insert_ne by done. done.
Qed.

Lemma assign_copy_empty_run {env : environment} σ d s obd :
  d ≠ s → objs σ !! d = Some obd → mutex obd = 0 →
  objs σ !! s = Some (Object None 0) →
  assign_copy d s σ =
    Done d (State (heap σ) (objs σ)
              (trace σ ++ [Acquire d; Acquire s; PtrRead s; Release s; Release d])).
Proof.
  intros Hds Hd Hm Hs. destruct obd as [p m]; simpl in Hm; subst m.
  exec. f_equal. f_equal; [same_map | same_trace].
Qed.

(** X13. The three constructors keep a store well formed: when no mutex
    is held, every non-null [ptr] points to a live cell and no cell has two
    owners, the same holds after [optional_ptr ()], after
    [optional_ptr (T const &)] from a live value, and after copy
    construction from any other instance, and each of them completes. *)
Theorem constructors_keep_well_formed {env : environment} σ o a oba lv v :
  well_formed σ →
  heap σ !! lv = Some v →
  o ≠ a → objs σ !! a = Some oba →
  (∃ σ', optional_ptr_empty o σ = Done tt σ' ∧ well_formed σ')
  ∧ (∃ σ', optional_ptr_from o lv σ = Done tt σ' ∧ well_formed σ')
  ∧ (∃ σ', optional_ptr_copy o a σ = Done tt σ' ∧ well_formed σ').
Proof.
  intros Hwf Hv Hoa Ha.
  pose proof Hwf as (Hq & Hlive & Hex).
  split; [|split].
  - rewrite optional_ptr_empty_run. eexists. split; [reflexivity|].
    apply well_formed_update; [done | | done].
    intros o' ob' l _ Ho' Hl. split; [|done]. apply (Hlive o' ob' Ho' l Hl).
  - rewrite (optional_ptr_from_run σ o lv v Hv). eexists. split; [reflexivity|].
    apply well_formed_update; [done | apply others_survive_new; done |].
    intros l [= <-]. rewrite lookup_insert_eq. eauto.
  - destruct oba as [[la|] m]; pose proof (Hq a _ Ha) as Hm; simpl in Hm; subst m.
    + destruct (Hlive a _ Ha la eq_refl) as [va Hva].
      rewrite (optional_ptr_copy_present_run σ o a la va Hoa Ha Hva).
      eexists. split; [reflexivity|].
      apply well_formed_update; [done | apply others_survive_new; done |].
      intros l [= <-]. rewrite lookup_insert_eq. eauto.
    + rewrite (optional_ptr_copy_empty_run σ o a Hoa Ha).
      eexists. split; [reflexivity|].
      apply well_formed_update; [done | | done].
      intros o' ob' l _ Ho' Hl. split; [|done]. apply (Hlive o' ob' Ho' l Hl).
Qed.

(** X14. Both assignment operators keep a store well formed and complete:
    [operator= (T const &)] from a live value, and copy assignment from any
    other instance, present or empty. *)
Theorem assignments_keep_well_formed {env : environment} σ o ob s obs lv v :
  well_formed σ →
  objs σ !! o = Some ob →
  heap σ !! lv = Some v →
  o ≠ s → objs σ !! s = Some obs →
  (∃ σ', assign_value o lv σ = Done o σ' ∧ well_formed σ')
  ∧ (∃ σ', assign_copy o s σ = Done o σ' ∧ well_formed σ').
Proof.
  intros Hwf Ho Hv Hos Hs.
  pose proof Hwf as (Hq & Hlive & Hex).
  pose proof (Hq o ob Ho) as Hm.
  assert (Hnew : ∀ w l,
    Some (fresh (dom (heap σ))) = Some l →
    is_Some ((match ptr ob with
              | Some ld => delete ld (<[fresh (dom (heap σ)) := w]> (heap σ))
              | None => <[fresh (dom (heap σ)) := w]> (heap σ)
              end) !! l)).
  { intros w l [= <-]. destruct (ptr ob) as [ld|] eqn:Hp.
    - rewrite lookup_delete_ne, lookup_insert_eq; [eauto|].
      apply fresh_cell_differs, (Hlive o ob Ho ld Hp).
    - rewrite lookup_insert_eq. eauto. }
  split.
  - rewrite (assign_value_run σ o ob lv v Ho Hm Hv). eexists. split; [reflexivity|].
    apply well_formed_update;
      [done | apply others_survive_replace; done | apply Hnew].
  - destruct obs as [[ls|] m]; pose proof (Hq s _ Hs) as Hms; simpl in Hms; subst m.
    + destruct (Hlive s _ Hs ls eq_refl) as [vs Hvs].
      rewrite (assign_copy_present_run σ o s ob ls vs Hos Ho Hm Hs Hvs).
      eexists. split; [reflexivity|].
      apply well_formed_update;
        [done | apply others_survive_replace; done | apply Hnew].
    + rewrite (assign_copy_empty_run σ o s ob Hos Ho Hm Hs).
      eexists. split; [reflexivity|]. apply well_formed_same_store, Hwf.
Qed.

(** X15. The destructor keeps a store well formed: it releases only the
    cell of the instance destroyed, which no other instance owns. *)
Theorem destroy_keeps_well_formed {env : environment} σ o ob :
  well_formed σ → objs σ !! o = Some ob →
  ∃ σ', optional_ptr_destroy o σ = Done tt σ' ∧ well_formed σ'.
Proof.
  intros Hwf Ho. pose proof Hwf as (Hq & Hlive & Hex).
  rewrite (optional_ptr_destroy_run σ o ob Ho (Hq o ob Ho)).
  eexists. split; [reflexivity|]. apply well_formed_remove; [done|].
  intros o' ob' l Hne Ho' Hl.
  destruct (ptr ob) as [ld|] eqn:Hp; [|apply (Hlive o' ob' Ho' l Hl)].
  rewrite lookup_delete_ne; [apply (Hlive o' ob' Ho' l Hl)|].
  intros ->. apply Hne. apply (Hex o' o ob' ob l); done.
Qed.


(** ** The order in which copy assignment takes the two mutexes *)

Lemma nested_copy_events d s (tail : list event) :
  (∀ held, nested_acquires held tail = []) →
  nested_acquires [] ([Acquire d; Acquire s; PtrRead s; Release s] ++ tail)
  = [(d, s)].
Proof. intros Htail. cbn. rewrite Htail. done. Qed.

Lemma assign_copy_nested {env : environment} σ d s obd obs :
  d ≠ s →
  objs σ !! d = Some obd → mutex obd = 0 →
  objs σ !! s = Some obs → mutex obs = 0 → owns_live σ obs →
  nested_acquires [] (events_since σ (assign_copy d s σ)) = [(d, s)].
Proof.
  intros Hds Hd Hmd Hs Hms Hlive.
  destruct obs as [[ls|] m]; simpl in Hms; subst m.
  - destruct (Hlive ls eq_refl) as [vs Hvs].
    rewrite (assign_copy_present_run σ d s obd ls vs Hds Hd Hmd Hs Hvs).
    rewrite events_since_done.
    apply (nested_copy_events d s
             ([PtrRead s; PtrRead s; CellRead ls; New (fresh (dom (heap σ)));
               PtrRead d; PtrWrite d]
                ++ match ptr obd with Some ld => [Delete ld] | None => [] end
                ++ [Release d])).
    intros held. cbn. destruct (ptr obd); done.
  - rewrite (assign_copy_empty_run σ d s obd Hds Hd Hmd Hs).
    rewrite events_since_done.
    apply (nested_copy_events d s [Release d]). done.
Qed.

(** X16. Copy assignment locks the source's mutex while it holds the
    destination's, and that is the only nested locking of the call: [a = b]
    takes the mutexes in the order a, b and [b = a] in the order b, a. *)
Theorem copy_assignment_lock_order {env : environment} σ a b oba obb :
  a ≠ b →
  objs σ !! a = Some oba → mutex oba = 0 → owns_live σ oba →
  objs σ !! b = Some obb → mutex obb = 0 → owns_live σ obb →
  nested_acquires [] (events_since σ (assign_copy a b σ)) = [(a, b)]
  ∧ nested_acquires [] (events_since σ (assign_copy b a σ)) = [(b, a)].
Proof.
  intros Hab Ha Hma Hla Hb Hmb Hlb. split.
  - apply (assign_copy_nested σ a b oba obb); done.
  - apply (assign_copy_nested σ b a obb oba); done.
Qed.

End Ownership.

(** * The further properties at work on [store_ab] and [store_cd] *)

Lemma store_ab_well_formed : well_formed store_ab.
Proof.
  unfold store_ab. split; [|split].
  - intros o ob. cbn. rewrite lookup_insert_Some, lookup_singleton_Some.
    intros [[_ <-]|[_ [_ <-]]]; done.
  - intros o ob. cbn. rewrite lookup_insert_Some, lookup_singleton_Some.
    intros [[_ <-]|[_ [_ <-]]] l; cbn; intros [= <-]. exists 42. reflexivity.
  - intros o1 o2 ob1 ob2 l. cbn.
    rewrite !lookup_insert_Some, !lookup_singleton_Some.
    intros [[<- <-]|[_ [<- <-]]] [[<- <-]|[_ [<- <-]]]; cbn; congruence.
Qed.

Lemma destroy_releases_owned_cell_witness :
  ∃ σ',
    optional_ptr_destroy (env := debug_build) 0 store_ab = Done tt σ'
    ∧ objs σ' !! 0 = None
    ∧ heap σ' !! 5%positive = None
    ∧ heap σ' !! 9%positive = Some 7.
Proof.
  destruct (destroy_releases_owned_cell (env := debug_build)
              store_ab 0 (Object (Some 5%positive) 0) eq_refl eq_refl)
    as (σ' & Hrun & Hobjs & Hgone & Hkept & _).
  exists σ'. split; [exact Hrun|].
  split; [rewrite Hobjs; reflexivity|].
  split; [exact (Hgone 5%positive eq_refl)|].
  rewrite (Hkept 9%positive) by discriminate. reflexivity.
Defined.


Lemma get_without_debug_assert_witness :
  ∃ σ', get (env := Environment false false) 1 store_ab = Done None σ'
        ∧ objs σ' = objs store_ab.
Proof.
  destruct (get_without_debug_assert false store_ab 1 (Object None 0)
              eq_refl eq_refl)
    as (σ' & Hrun & _ & Hobjs & _).
  exists σ'. split; [exact Hrun | exact Hobjs].
Defined.

Lemma accessors_agree_witness :
  ∃ σ',
    operator_star (env := Environment false false) 0 store_ab = Done 5%positive σ'
    ∧ operator_arrow (env := Environment false false) 0 store_ab
        = Done (Some 5%positive) σ'
    ∧ get (env := Environment false false) 0 store_ab = Done (Some 5%positive) σ'.
Proof.
  destruct (accessors_agree false store_ab 0 5%positive eq_refl)
    as (σ' & Hstar & Harrow & Hget & _).
  exists σ'. split; [exact Hstar|]. split; [exact Harrow | exact Hget].
Defined.

Lemma write_then_read_witness :
  ∃ σ', (write (env := debug_build) 0 1;; read (env := debug_build) 0) store_ab
          = Done 1 σ'
        ∧ heap σ' !! 5%positive = Some 1.
Proof.
  destruct (write_then_read (env := debug_build) store_ab 0 5%positive 42 1
              eq_refl eq_refl)
    as (σ' & Hrun & _ & Hheap).
  exists σ'. split; [exact Hrun|]. rewrite Hheap. reflexivity.
Defined.

Lemma queries_only_observe_witness :
  ∃ σ',
    ask_all (env := debug_build) 0 [ViaOperatorBool; ViaIsInitialized; ViaOperatorBool]
      store_ab = Done [true; true; true] σ'
    ∧ value_of σ' 0 = Some 42.
Proof.
  destruct (queries_only_observe (env := debug_build) store_ab 0
              (Object (Some 5%positive) 0)
              [ViaOperatorBool; ViaIsInitialized; ViaOperatorBool]
              eq_refl eq_refl)
    as (σ' & Hrun & _ & _ & Hval).
  exists σ'. split; [exact Hrun|]. rewrite Hval. reflexivity.
Defined.

Lemma construct_assign_destroy_restores_witness :
  ∃ σ',
    (optional_ptr_from (env := debug_build) 2 9%positive;;
     assign_all (env := debug_build) 2 [5%positive; 9%positive; 5%positive];;
     optional_ptr_destroy (env := debug_build) 2) store_ab = Done tt σ'
    ∧ heap σ' = heap store_ab
    ∧ objs σ' = objs store_ab.
Proof.
  apply (construct_assign_destroy_restores (env := debug_build)
           store_ab 2 9%positive 7
           [5%positive; 9%positive; 5%positive] [42; 7; 42]).
  - reflexivity.
  - reflexivity.
  - repeat constructor.
Defined.

Lemma construct_assign_reads_last_witness :
  ∃ σ',
    (optional_ptr_from (env := debug_build) 2 9%positive;;
     assign_all (env := debug_build) 2 [9%positive; 5%positive];;
     read (env := debug_build) 2) store_ab = Done 42 σ'.
Proof.
  apply (construct_assign_reads_last (env := debug_build)
           store_ab 2 9%positive 7 [9%positive; 5%positive] [7; 42]).
  - reflexivity.
  - repeat constructor.
Defined.

Lemma assign_own_value_witness :
  ∃ σ' l',
    (r <- operator_star (env := debug_build) 0;
     assign_value (env := debug_build) 0 r) store_ab = Done 0 σ'
    ∧ objs σ' !! 0 = Some (Object (Some l') 0)
    ∧ value_of σ' 0 = Some 42
    ∧ heap σ' !! 5%positive = None.
Proof.
  destruct (assign_own_value (env := debug_build) store_ab 0 5%positive 42
              eq_refl eq_refl)
    as (σ' & l' & Hrun & Hobjs & _ & Hval & Hgone).
  exists σ', l'. repeat split; assumption.
Defined.

Lemma copy_survives_source_witness :
  ∃ σ',
    (optional_ptr_copy (env := debug_build) 2 0;;
     optional_ptr_destroy (env := debug_build) 0;;
     read (env := debug_build) 2) store_ab = Done 42 σ'.
Proof.
  destruct (copy_survives_source (env := debug_build) store_ab 2 0 5%positive 42)
    as (σ' & Hrun & _); [lia | reflexivity | reflexivity |].
  exists σ'. exact Hrun.
Defined.

Lemma assigned_copy_survives_source_witness :
  ∃ σ',
    (assign_copy (env := debug_build) 1 0;;
     optional_ptr_destroy (env := debug_build) 0;;
     read (env := debug_build) 1) store_cd = Done 42 σ'
    ∧ heap σ' !! 5%positive = None.
Proof.
  destruct (assigned_copy_survives_source (env := debug_build)
              store_cd 1 0 (Object (Some 6%positive) 0) 5%positive 42)
    as (σ' & Hrun & _ & Hgone).
  - lia.
  - reflexivity.
  - reflexivity.
  - intros l [= <-]. exists 8. reflexivity.
  - discriminate.
  - reflexivity.
  - reflexivity.
  - exists σ'. split; [exact Hrun | exact Hgone].
Defined.

Lemma copy_ignores_writes_witness :
  (∃ σ', (optional_ptr_copy (env := debug_build) 2 0;;
          write (env := debug_build) 2 1;;
          read (env := debug_build) 0) store_ab = Done 42 σ')
  ∧ (∃ σ', (optional_ptr_copy (env := debug_build) 2 0;;
            write (env := debug_build) 0 1;;
            read (env := debug_build) 2) store_ab = Done 42 σ').
Proof.
  destruct (copy_ignores_writes (env := debug_build) store_ab 2 0 5%positive 42 1)
    as (Hca & _ & Hac & _); [lia | reflexivity | reflexivity |].
  split; [exact Hca | exact Hac].
Defined.

Lemma constructors_keep_well_formed_witness :
  (∃ σ', optional_ptr_empty (env := debug_build) 2 store_ab = Done tt σ'
         ∧ well_formed σ')
  ∧ (∃ σ', optional_ptr_from (env := debug_build) 2 9%positive store_ab = Done tt σ'
           ∧ well_formed σ')
  ∧ (∃ σ', optional_ptr_copy (env := debug_build) 2 0 store_ab = Done tt σ'
           ∧ well_formed σ').
Proof.
  apply (constructors_keep_well_formed (env := debug_build)
           store_ab 2 0 (Object (Some 5%positive) 0) 9%positive 7).
  - exact store_ab_well_formed.
  - reflexivity.
  - lia.
  - reflexivity.
Defined.

Lemma assignments_keep_well_formed_witness :
  (∃ σ', assign_value (env := debug_build) 0 9%positive store_ab = Done 0 σ'
         ∧ well_formed σ')
  ∧ (∃ σ', assign_copy (env := debug_build) 0 1 store_ab = Done 0 σ'
           ∧ well_formed σ').
Proof.
  apply (assignments_keep_well_formed (env := debug_build)
           store_ab 0 (Object (Some 5%positive) 0) 1 (Object None 0) 9%positive 7).
  - exact store_ab_well_formed.
  - reflexivity.
  - reflexivity.
  - lia.
  - reflexivity.
Defined.

Lemma destroy_keeps_well_formed_witness :
  ∃ σ', optional_ptr_destroy (env := debug_build) 0 store_ab = Done tt σ'
        ∧ well_formed σ'.
Proof.
  apply (destroy_keeps_well_formed (env := debug_build)
           store_ab 0 (Object (Some 5%positive) 0)).
  - exact store_ab_well_formed.
  - reflexivity.
Defined.


Lemma copy_assignment_lock_order_witness :
  nested_acquires []
    (events_since store_cd (assign_copy (env := debug_build) 0 1 store_cd))
    = [(0, 1)]
  ∧ nested_acquires []
      (events_since store_cd (assign_copy (env := debug_build) 1 0 store_cd))
      = [(1, 0)].
Proof.
  apply (copy_assignment_lock_order (env := debug_build)
           store_cd 0 1 (Object (Some 5%positive) 0) (Object (Some 6%positive) 0)).
  - lia.
  - reflexivity.
  - reflexivity.
  - intros l [= <-]. exists 42. reflexivity.
  - reflexivity.
  - reflexivity.
  - intros l [= <-]. exists 8. reflexivity.
Defined.
